(** * Error chains of package [errors]: a shallow embedding

    The Go package builds errors out of four node types ([errorString],
    [withMessage], [withError], [enrichedError]) and walks them with
    [Unwrap], [Cause], [Is] and [keysAndValues].  Every node is allocated
    once ([&T{...}]) and never mutated, so an error value is modelled as an
    immutable tree whose nodes carry the address they were allocated at;
    Go's [==] on two errors compares those addresses, and the constructors
    run in a small allocation monad that hands out fresh addresses.  The
    [error] interface value is [option error], with [None] for Go's [nil].

    A chain ends at a plain error or at an error value supplied from
    outside the package.  Such a value is the leaf [foreignError] when its
    type has no method besides [Error], and an [outsideError] when its type
    has an [Unwrap] or a [Cause] method, through which the walks of the
    package go on.

    [errors.go] calls the package-level [Is] and [Unwrap], which are not
    part of the sources at hand; they are modelled after the description
    of the package and marked as such. *)

From Stdlib Require Import ZArith.
From stdpp Require Import gmap strings list fin_maps.

Local Open Scope string_scope.
Local Open Scope list_scope.
Local Open Scope stdpp_scope.

(** ** Loosely typed values ([interface{}]) *)

#[local] Set Warnings "-register-all".

(** The fragment of Go's dynamic values that key-value lists are built from
    here: the nil interface, strings, integers and slices of values. *)
Inductive value : Type :=
  | VNil
  | VString (s : string)
  | VInt (n : Z)
  | VSlice (l : list value).

(** [type tuples []interface{}] *)
Definition tuples : Type := list value.

(** [label, ok = l.(string)]: on failure the zero value and [false]. *)
Definition assert_string (l : value) : string * bool :=
  match l with
  | VString s => (s, true)
  | _ => ("", false)
  end.

(** A Go [map[string]interface{}] is either the nil map or an allocated
    table. *)
Inductive gomap : Type :=
  | NilMap
  | Map (m : gmap string value).

(** What a reader of the map sees: the nil map reads as the empty one. *)
Definition entries (g : gomap) : gmap string value :=
  match g with
  | NilMap => ∅
  | Map m => m
  end.

(** ** Error nodes *)

Definition ptr : Type := nat.

(** The four struct types of the package, each behind a pointer [p], and
    [foreignError] for an error value supplied from outside the package
    that has neither an [Is], an [Unwrap] nor a [Cause] method (such as
    the standard library's [context.Canceled]).  The [err] and [cause]
    fields are never nil: the struct types are unexported and each
    constructor returns before building a node when an argument is nil.

    [outsideError] is an error value of a type declared outside the
    package that takes part in the walks: [unwrap] is what its [Unwrap]
    method returns and [cause] what its [Cause] method returns, [None]
    when the type has no such method or the method returns nil.  Such a
    value is held behind a pointer like the others, and its type has no
    [Is] method. *)
Inductive error : Type :=
  | errorString (p : ptr) (message : string)
  | withMessage (p : ptr) (message : string) (err : error)
  | withError (p : ptr) (message : string) (err : error) (cause : error)
  | enrichedError (p : ptr) (err : error) (keysAndValues : tuples)
  | foreignError (p : ptr) (message : string)
  | outsideError (p : ptr) (message : string)
                 (unwrap : option error) (cause : option error).

Definition addr (e : error) : ptr :=
  match e with
  | errorString p _ => p
  | withMessage p _ _ => p
  | withError p _ _ _ => p
  | enrichedError p _ _ => p
  | foreignError p _ => p
  | outsideError p _ _ _ => p
  end.

(** Go's [err == target] on two non-nil errors held behind pointers. *)
Definition same (a b : error) : bool := Nat.eqb (addr a) (addr b).

(** Go's [==] on two interface values. *)
Definition iface_eqb (a b : option error) : bool :=
  match a, b with
  | None, None => true
  | Some x, Some y => same x y
  | _, _ => false
  end.

(** The [Error() string] method of every node type. *)
Fixpoint Error (e : error) : string :=
  match e with
  | errorString _ message => message
  | withMessage _ message _ => message
  | withError _ message _ _ => message
  | enrichedError _ err _ => Error err
  | foreignError _ message => message
  | outsideError _ message _ _ => message
  end.

(** The [Unwrap() error] methods:
    [withMessage.Unwrap], [withError.Unwrap], [enrichedError.Unwrap], and
    the one of an outside type; [None] where the type has no such
    method. *)
Definition Unwrap_method (e : error) : option error :=
  match e with
  | withMessage _ _ err => Some err
  | withError _ _ err _ => Some err
  | enrichedError _ err _ => Some err
  | outsideError _ _ unwrap _ => unwrap
  | errorString _ _ | foreignError _ _ => None
  end.

(** Modelled from the spec: the package-level [Unwrap] is not among the
    sources.  "Returns the error's declared inner error if it exposes one,
    else absent": a nil error, or one without an [Unwrap] method, gives
    nil. *)
Definition Unwrap (err : option error) : option error :=
  match err with
  | None => None
  | Some e => Unwrap_method e
  end.

(** [func Cause(err error) error]: the [causer] type assertion succeeds on
    [*withError], whose [Cause] method returns the [cause] field, and on
    an outside type with a [Cause] method; every other error, nil
    included, gives nil. *)
Definition Cause (err : option error) : option error :=
  match err with
  | Some (withError _ _ _ cause) => Some cause
  | Some (outsideError _ _ _ cause) => cause
  | _ => None
  end.

(** ** Allocation *)

(** [&T{...}] takes the next free address.  A computation that may allocate
    threads the allocator through. *)
Definition alloc (A : Type) : Type := ptr -> A * ptr.

#[export] Instance alloc_ret : MRet alloc := fun A a n => (a, n).

#[export] Instance alloc_bind : MBind alloc :=
  fun A B k c n => let (a, n') := c n in k a n'.

Definition fresh : alloc ptr := fun n => (n, S n).

(** The value a computation returns when started at allocator state [n]. *)
Definition eval {A} (c : alloc A) (n : ptr) : A := fst (c n).

(** ** Constructors *)

(** [func New(message string) error] *)
Definition New (message : string) : alloc (option error) :=
  p ← fresh; mret (Some (errorString p message)).

(** [fmt.Sprintf("%s: %s", a, b)] on a string and an error, or on two
    errors: an error operand is printed through its [Error] method. *)
Definition sprintf_colon (a b : string) : string := a +:+ ": " +:+ b.

(** [func Wrap(err error, message string) error] *)
Definition Wrap (err : option error) (message : string) : alloc (option error) :=
  match err with
  | None => mret None
  | Some e =>
      let msg := sprintf_colon message (Error e) in
      p ← fresh; mret (Some (withMessage p msg e))
  end.

(** [func WrapError(err error, supplied error) error] *)
Definition WrapError (err supplied : option error) : alloc (option error) :=
  match err with
  | None => mret supplied
  | Some e =>
      match supplied with
      | None => mret err
      | Some s =>
          let msg := sprintf_colon (Error s) (Error e) in
          p ← fresh; mret (Some (withError p msg s e))
      end
  end.

(** [func Enrich(err error, keysAndValues ...interface{}) error] *)
Definition Enrich (err : option error) (keysAndValues : tuples) : alloc (option error) :=
  match err with
  | None => mret None
  | Some e =>
      if negb (Nat.eqb (length keysAndValues mod 2) 0) then mret err
      else p ← fresh; mret (Some (enrichedError p e keysAndValues))
  end.

(** [func EnrichWrapError(err error, supplied error, keysAndValues ...interface{}) error] *)
Definition EnrichWrapError (err supplied : option error) (keysAndValues : tuples)
  : alloc (option error) :=
  w ← WrapError err supplied; Enrich w keysAndValues.

(** ** Matching *)

(** Modelled from the spec: the package-level [Is] is not among the
    sources.  It is the host language's error-equality walk: at each error
    of the unwrap chain the target matches when it is that very error, or
    when the error has an [Is] method that accepts it; the walk then moves
    on to what the error unwraps to and stops at the end of the chain.

    The two [Is] methods are the package's own and are inlined in the
    second disjunct:
    - [errorString.Is]: [s.message == err.Error()];
    - [withError.Is]: [Is(we.err, target)], or else, with
      [cause := Cause(we)] not nil, [Is(cause, target)]. *)
Fixpoint is_loop (err target : error) {struct err} : bool :=
  same err target
  || match err with
     | errorString _ message => String.eqb message (Error target)
     | withError _ _ err' cause => is_loop err' target || is_loop cause target
     | _ => false
     end
  || match err with
     | withMessage _ _ err' => is_loop err' target
     | withError _ _ err' _ => is_loop err' target
     | enrichedError _ err' _ => is_loop err' target
     | outsideError _ _ (Some err') _ => is_loop err' target
     | outsideError _ _ None _ => false
     | errorString _ _ | foreignError _ _ => false
     end.

(** Modelled from the spec: [Is(err, target)], see [is_loop].  When either
    side is nil the answer is whether both are. *)
Definition Is (err target : option error) : bool :=
  match err, target with
  | Some e, Some t => is_loop e t
  | _, _ => iface_eqb err target
  end.

(** [func (s *errorString) Is(err error) bool] *)
Definition errorString_Is (message : string) (err : error) : bool :=
  String.eqb message (Error err).

(** [func (we *withError) Is(target error) bool], on the node [we]. *)
Definition withError_Is (we target : error) : bool :=
  match we with
  | withError _ _ err _ =>
      if Is (Some err) (Some target) then true
      else match Cause (Some we) with
           | None => false
           | Some cause => Is (Some cause) (Some target)
           end
  | _ => false
  end.

(** The [Is(error) bool] method of a node, [None] where the type has
    none. *)
Definition Is_method (e target : error) : option bool :=
  match e with
  | errorString _ message => Some (errorString_Is message target)
  | withError _ _ _ _ => Some (withError_Is e target)
  | _ => None
  end.

(** ** Key-value aggregation *)

(** [func keysAndValues(err error) []interface{}], on a non-nil error. *)
Fixpoint keysAndValues (err : error) : tuples :=
  let kv := match err with
            | enrichedError _ _ kvs => kvs
            | _ => []
            end in
  match err with
  | errorString _ _ | foreignError _ _ => kv
  | withMessage _ _ uErr => kv ++ keysAndValues uErr
  | enrichedError _ uErr _ => kv ++ keysAndValues uErr
  | withError _ _ uErr cause => (kv ++ keysAndValues uErr) ++ keysAndValues cause
  | outsideError _ _ None _ => kv
  | outsideError _ _ (Some uErr) None => kv ++ keysAndValues uErr
  | outsideError _ _ (Some uErr) (Some cause) =>
      (kv ++ keysAndValues uErr) ++ keysAndValues cause
  end.

(** [func (t tuples) fields() map[string]interface{}]: the [range] loop
    over [t], started at index [i] with [t[i:]] still to visit.  It
    returns the table and [label] as they are when the loop is left, by
    exhaustion or by [break]. *)
Fixpoint fields_range (t : tuples) (label : string) (result : gmap string value)
  : gmap string value * string :=
  match t with
  | [] => (result, label)
  | l :: rest =>
      if String.eqb label "" then
        let (label', ok) := assert_string l in
        if negb ok || String.eqb label' "" then
          (<["malformedFields" := VSlice (l :: rest)]> result, label')
        else fields_range rest label' result
      else fields_range rest "" (<[label := l]> result)
  end.

Definition fields (t : tuples) : gomap :=
  if Nat.eqb (length t) 0 then NilMap
  else
    let (result, label) := fields_range t "" ∅ in
    if negb (String.eqb label "") then
      Map (<["malformedFields" := VSlice [VString label]]> result)
    else Map result.

(** The methods of [*enrichedError]; [None] on a node of another type,
    where the type assertion to the interface with [Tuples] and [Fields]
    fails. *)
Definition Tuples (ee : error) : option tuples :=
  match ee with
  | enrichedError _ _ _ => Some (keysAndValues ee)
  | _ => None
  end.

Definition Fields (ee : error) : option gomap :=
  match ee with
  | enrichedError _ _ kvs => Some (fields kvs)
  | _ => None
  end.

(** ** The specification's reading of [Fields] and of the cause chain *)

(** The pairing as the specification words it: the flat sequence is read
    two elements at a time as key and value; at the first key position
    that does not hold a non-empty string the whole remaining tail goes
    under ["malformedFields"], and so does a last key left without a
    value. *)
Fixpoint pair_up (t : tuples) (acc : gmap string value) : gmap string value :=
  match t with
  | [] => acc
  | VString k :: rest =>
      if String.eqb k "" then <["malformedFields" := VSlice t]> acc
      else match rest with
           | [] => <["malformedFields" := VSlice [VString k]]> acc
           | v :: rest' => pair_up rest' (<[k := v]> acc)
           end
  | _ :: _ => <["malformedFields" := VSlice t]> acc
  end.

(** The errors met by walking the cause edge from a node: [Cause(err)],
    [Cause(Cause(err))], and so on while a cause is exposed. *)
Fixpoint cause_chain (err : error) : list error :=
  match err with
  | withError _ _ _ cause => cause :: cause_chain cause
  | outsideError _ _ _ (Some cause) => cause :: cause_chain cause
  | _ => []
  end.

(** The part of the cause chain on which every error that exposes the next
    cause is a cause wrap of the package. *)
Fixpoint wrapped_causes (err : error) : list error :=
  match err with
  | withError _ _ _ cause => cause :: wrapped_causes cause
  | _ => []
  end.


(** A node's own pairs: the [keysAndValues] field of an [*enrichedError],
    nothing for the other types. *)
Definition local_pairs (err : error) : tuples :=
  match err with
  | enrichedError _ _ kvs => kvs
  | _ => []
  end.

(** The matching rule of a cause wrap [w] over the supplied error [s] as
    the specification words it: a match of [s], or of any error on the
    cause chain of [w], is a match of [w]. *)
Definition matches_along_cause_chain
    (w : option error) (s : error) (t : option error) : Prop :=
  (Is (Some s) t = true
   ∨ ∃ c, c ∈ from_option cause_chain [] w ∧ Is (Some c) t = true) →
  Is w t = true.

(** The order of the pairs as the specification words it, for every
    error: the node's own pairs, then those collected along the unwrap
    edge, then those collected along the cause edge. *)
Definition own_unwrap_cause_order (err : error) : Prop :=
  keysAndValues err =
    local_pairs err
    ++ from_option keysAndValues [] (Unwrap (Some err))
    ++ from_option keysAndValues [] (Cause (Some err)).

(** Every address inside an error, and the invariant the allocator keeps:
    all of them are below the next free address. *)
Fixpoint addrs (e : error) : list ptr :=
  match e with
  | errorString p _ | foreignError p _ => [p]
  | withMessage p _ err | enrichedError p err _ => p :: addrs err
  | withError p _ err cause => p :: addrs err ++ addrs cause
  | outsideError p _ unwrap cause =>
      p :: match unwrap with Some err => addrs err | None => [] end
        ++ match cause with Some err => addrs err | None => [] end
  end.

Definition allocated (n : ptr) (e : error) : Prop :=
  Forall (λ p, (p < n)%nat) (addrs e).

Definition allocated_opt (n : ptr) (e : option error) : Prop :=
  match e with
  | None => True
  | Some e => allocated n e
  end.

(** Every node of an error: the error itself and the nodes below it along
    its unwrap and cause edges. *)
Fixpoint nodes (e : error) : list error :=
  e :: match e with
       | errorString _ _ | foreignError _ _ => []
       | withMessage _ _ err | enrichedError _ err _ => nodes err
       | withError _ _ err cause => nodes err ++ nodes cause
       | outsideError _ _ unwrap cause =>
           match unwrap with Some err => nodes err | None => [] end
           ++ match cause with Some err => nodes err | None => [] end
       end.

(** The statement after the loop of [fields]: a pending label is filed
    under ["malformedFields"]. *)
Definition finish (r : gmap string value * string) : gmap string value :=
  let (result, label) := r in
  if negb (String.eqb label "") then
    <["malformedFields" := VSlice [VString label]]> result
  else result.

(** ** Formatted messages *)

(** [func Newf(format string, args ...interface{}) error].
    [fmt.Sprintf(format, args...)] is the standard library's and is taken
    as the argument [Sprintf]. *)
Definition Newf (Sprintf : string → list value → string)
    (format : string) (args : list value) : alloc (option error) :=
  let message := Sprintf format args in
  p ← fresh; mret (Some (errorString p message)).

(** [func Wrapf(err error, format string, args ...any) error] *)
Definition Wrapf (Sprintf : string → list value → string)
    (err : option error) (format : string) (args : list value)
  : alloc (option error) :=
  match err with
  | None => mret None
  | Some _ =>
      let message := Sprintf format args in
      Wrap err message
  end.

(** ** Shapes of inputs and of chains *)

(** Key-value pairs laid out flat, the way a caller passes them. *)
Fixpoint flat (ps : list (string * value)) : tuples :=
  match ps with
  | [] => []
  | (k, v) :: ps => VString k :: v :: flat ps
  end.

(** A value that [fields] accepts at a key position: a non-empty string. *)
Definition is_key (v : value) : bool :=
  match v with
  | VString s => negb (String.eqb s "")
  | _ => false
  end.

(** Every enriched node of the chain holds an even number of values. *)
Fixpoint even_pairs (e : error) : Prop :=
  match e with
  | errorString _ _ | foreignError _ _ => True
  | withMessage _ _ err => even_pairs err
  | withError _ _ err cause => even_pairs err ∧ even_pairs cause
  | enrichedError _ err kvs => length kvs mod 2 = 0 ∧ even_pairs err
  | outsideError _ _ unwrap cause =>
      match unwrap with Some err => even_pairs err | None => True end
      ∧ match cause with Some err => even_pairs err | None => True end
  end.

Definition even_pairs_opt (e : option error) : Prop :=
  match e with
  | None => True
  | Some e => even_pairs e
  end.

(** The pairs of a possibly nil error: none for nil. *)
Definition pairs_of (e : option error) : tuples :=
  from_option keysAndValues [] e.

(** ** Proof steps *)

(** Runs the allocator steps of a constructor. *)
Ltac run_alloc :=
  unfold eval, mbind, alloc_bind, mret, alloc_ret, fresh; simpl.

(** The same for [WrapError] on two present errors, leaving the walks
    over the nodes folded. *)
Ltac run_WrapError :=
  unfold eval, WrapError, mbind, alloc_bind, mret, alloc_ret, fresh;
  cbv beta iota zeta; cbn [fst snd].

(** Runs the constructors up to the parity test of [Enrich] and splits on
    it. *)
Ltac run_Enrich kvs :=
  unfold EnrichWrapError, Enrich; run_WrapError;
  destruct (Nat.eqb (length kvs mod 2) 0); simpl.

(** ** Basic facts *)

(** Induction over an error that also goes down the two edges of an
    outside error. *)
Lemma error_edges_ind (P : error → Prop) :
  (∀ p m, P (errorString p m)) →
  (∀ p m e, P e → P (withMessage p m e)) →
  (∀ p m s, P s → ∀ e, P e → P (withError p m s e)) →
  (∀ p e, P e → ∀ kvs, P (enrichedError p e kvs)) →
  (∀ p m, P (foreignError p m)) →
  (∀ p m u c, from_option P True u → from_option P True c →
              P (outsideError p m u c)) →
  ∀ e, P e.
Proof.
  intros Hplain Hmsg Hcause Henr Hleaf Hout. fix IH 1.
  intros [p m | p m e | p m s e | p e kvs | p m | p m u c].
  - apply Hplain.
  - apply Hmsg, IH.
  - apply Hcause; apply IH.
  - apply Henr, IH.
  - apply Hleaf.
  - apply Hout.
    + destruct u as [x|]; [apply IH | exact I].
    + destruct c as [x|]; [apply IH | exact I].
Qed.

Lemma same_refl (e : error) : same e e = true.
Proof. unfold same. apply Nat.eqb_refl. Qed.

Lemma same_sym (a b : error) : same a b = same b a.
Proof. unfold same. apply Nat.eqb_sym. Qed.

Lemma addr_in_addrs (e : error) : addr e ∈ addrs e.
Proof. destruct e; simpl; apply list_elem_of_here. Qed.

Lemma allocated_addr (n : ptr) (e : error) : allocated n e → (addr e < n)%nat.
Proof.
  intros H. unfold allocated in H. rewrite Forall_forall in H.
  apply H, addr_in_addrs.
Qed.

Lemma allocated_mono (n n' : ptr) (e : error) :
  (n ≤ n')%nat → allocated n e → allocated n' e.
Proof.
  intros Hle H. unfold allocated in *.
  eapply Forall_impl; [exact H|]. simpl. intros p Hp. lia.
Qed.

(** A node handed out by the allocator is none of the errors that existed
    before it. *)
Lemma fresh_not_same (n : ptr) (e w : error) :
  allocated n e → addr w = n → same w e = false.
Proof.
  intros He Hw. apply allocated_addr in He.
  unfold same. apply Nat.eqb_neq. lia.
Qed.

(** The walk of [Is] written with the methods of the code: identity, then
    the node's own [Is] method when it has one, then the unwrap edge. *)
Lemma is_loop_unfold (err target : error) :
  is_loop err target =
    same err target
    || default false (Is_method err target)
    || match Unwrap (Some err) with
       | Some u => is_loop u target
       | None => false
       end.
Proof. destruct err; reflexivity. Qed.

Lemma is_loop_refl (e : error) : is_loop e e = true.
Proof. rewrite is_loop_unfold, same_refl. reflexivity. Qed.

Lemma Is_refl (e : error) : Is (Some e) (Some e) = true.
Proof. apply is_loop_refl. Qed.

Lemma Is_nil_target (e : error) : Is (Some e) None = false.
Proof. reflexivity. Qed.

(** [withError.Is] on the node built from [s] and [e]. *)
Lemma withError_Is_eq (p : ptr) (msg : string) (s e target : error) :
  withError_Is (withError p msg s e) target =
    Is (Some s) (Some target) || Is (Some e) (Some target).
Proof. simpl. destruct (is_loop s target); reflexivity. Qed.

(** What [Is] answers on a cause-wrapped node. *)
Lemma is_loop_withError (p : ptr) (msg : string) (s e target : error) :
  is_loop (withError p msg s e) target =
    same (withError p msg s e) target || is_loop s target || is_loop e target.
Proof.
  simpl. destruct (same _ target), (is_loop s target), (is_loop e target);
    reflexivity.
Qed.

Lemma is_loop_withMessage (p : ptr) (msg : string) (e target : error) :
  is_loop (withMessage p msg e) target =
    same (withMessage p msg e) target || is_loop e target.
Proof. simpl. by rewrite orb_false_r. Qed.

Lemma is_loop_enrichedError (p : ptr) (e : error) (kvs : tuples) (target : error) :
  is_loop (enrichedError p e kvs) target =
    same (enrichedError p e kvs) target || is_loop e target.
Proof. simpl. by rewrite orb_false_r. Qed.

Lemma is_loop_errorString (p : ptr) (message : string) (target : error) :
  is_loop (errorString p message) target =
    same (errorString p message) target || errorString_Is message target.
Proof. simpl. by rewrite orb_false_r. Qed.

(** A match anywhere along the cause wraps of a node is a match of the
    node. *)
Lemma is_loop_wrapped_causes (err c target : error) :
  c ∈ wrapped_causes err → is_loop c target = true → is_loop err target = true.
Proof.
  induction err as [ | | p msg s _ e IHe | | | ]; simpl wrapped_causes;
    intros Hin Hc; try (by apply elem_of_nil in Hin).
  rewrite is_loop_withError.
  apply elem_of_cons in Hin as [-> | Hin].
  - rewrite Hc. by rewrite orb_true_r.
  - rewrite (IHe Hin Hc). by rewrite orb_true_r.
Qed.

(** ** The allocator invariant *)

Lemma New_allocated (n : ptr) (message : string) :
  allocated_opt (New message n).2 (New message n).1 ∧ (n ≤ (New message n).2)%nat.
Proof.
  split; [|simpl; lia]. simpl. unfold allocated. simpl.
  constructor; [lia | constructor].
Qed.

Lemma Wrap_allocated (n : ptr) (err : option error) (message : string) :
  allocated_opt n err →
  allocated_opt (Wrap err message n).2 (Wrap err message n).1
  ∧ (n ≤ (Wrap err message n).2)%nat.
Proof.
  destruct err as [e|]; simpl; [|auto].
  intros He. split; [|lia]. unfold allocated in *. simpl.
  constructor; [lia|]. eapply Forall_impl; [exact He|]. simpl. lia.
Qed.

Lemma WrapError_allocated (n : ptr) (err supplied : option error) :
  allocated_opt n err → allocated_opt n supplied →
  allocated_opt (WrapError err supplied n).2 (WrapError err supplied n).1
  ∧ (n ≤ (WrapError err supplied n).2)%nat.
Proof.
  destruct err as [e|], supplied as [s|]; simpl; auto.
  intros He Hs. split; [|lia]. unfold allocated in *. simpl.
  constructor; [lia|]. apply Forall_app. split.
  - eapply Forall_impl; [exact Hs|]. simpl. lia.
  - eapply Forall_impl; [exact He|]. simpl. lia.
Qed.

Lemma Enrich_allocated (n : ptr) (err : option error) (kvs : tuples) :
  allocated_opt n err →
  allocated_opt (Enrich err kvs n).2 (Enrich err kvs n).1
  ∧ (n ≤ (Enrich err kvs n).2)%nat.
Proof.
  destruct err as [e|]; [|simpl; auto].
  intros He. unfold Enrich.
  destruct (negb (Nat.eqb (length kvs mod 2) 0)); [simpl; auto|].
  run_alloc. split; [|lia]. unfold allocated in *. simpl.
  constructor; [lia|]. eapply Forall_impl; [exact He|]. simpl. lia.
Qed.

Lemma EnrichWrapError_allocated (n : ptr) (err supplied : option error) (kvs : tuples) :
  allocated_opt n err → allocated_opt n supplied →
  allocated_opt (EnrichWrapError err supplied kvs n).2
                (EnrichWrapError err supplied kvs n).1
  ∧ (n ≤ (EnrichWrapError err supplied kvs n).2)%nat.
Proof.
  intros He Hs.
  destruct (WrapError_allocated n err supplied He Hs) as [Hw Hle].
  unfold EnrichWrapError, mbind, alloc_bind.
  destruct (WrapError err supplied n) as [w n']. simpl in Hw, Hle.
  destruct (Enrich_allocated n' w kvs Hw) as [H1 H2].
  split; [exact H1 | lia].
Qed.

(** ** [fields] against the pairing of the specification *)

Lemma fields_finish (t : tuples) :
  t ≠ [] → fields t = Map (finish (fields_range t "" ∅)).
Proof.
  intros Ht. unfold fields, finish.
  destruct t as [|l rest]; [done|]. simpl length. simpl Nat.eqb. cbv iota.
  destruct (fields_range (l :: rest) "" ∅) as [result label].
  destruct (negb (String.eqb label "")); reflexivity.
Qed.

Lemma eqb_label_false (label : string) :
  label ≠ "" → String.eqb label "" = false.
Proof. intros H. by apply String.eqb_neq. Qed.

(** The loop run from a key position pairs up what is left; run with a
    label pending, it first files the next element under that label. *)
Lemma fields_range_pair_up (t : tuples) :
  (∀ acc, finish (fields_range t "" acc) = pair_up t acc)
  ∧ (∀ acc label, label ≠ "" →
       finish (fields_range t label acc) =
         match t with
         | [] => <["malformedFields" := VSlice [VString label]]> acc
         | v :: rest => pair_up rest (<[label := v]> acc)
         end).
Proof.
  induction t as [|l rest [IHkey IHval]].
  - split.
    + intros acc. reflexivity.
    + intros acc label Hl. simpl. by rewrite (eqb_label_false _ Hl).
  - split.
    + intros acc. simpl fields_range.
      destruct l as [ | k | z | vs ]; try reflexivity.
      simpl assert_string. cbv iota. simpl negb. simpl orb.
      simpl pair_up. destruct (String.eqb k "") eqn:Ek.
      * simpl. by rewrite Ek.
      * apply String.eqb_neq in Ek. rewrite (IHval acc k Ek).
        destruct rest; reflexivity.
    + intros acc label Hl. simpl fields_range.
      rewrite (eqb_label_false _ Hl). apply IHkey.
Qed.

(** Read as a mapping, [fields t] is the pairing of [t]. *)
Lemma fields_pair_up (t : tuples) : entries (fields t) = pair_up t ∅.
Proof.
  destruct t as [|l rest] eqn:Et; [reflexivity|].
  rewrite fields_finish by done. simpl entries.
  apply (proj1 (fields_range_pair_up (l :: rest))).
Qed.

(** ** Constructors: absence rules and the nodes they build *)

(** C4: [WrapError] follows the four-case absence policy.  With the
    original error nil the supplied error comes back as it is; with the
    supplied error nil the original comes back as it is; with both nil the
    result is nil; in these three cases nothing is allocated.  With both
    present a [withError] node is built at the next free address. *)
Theorem WrapError_absence_policy (n : ptr) (e s : error) :
  WrapError None (Some s) n = (Some s, n)
  ∧ WrapError (Some e) None n = (Some e, n)
  ∧ WrapError None None n = (None, n)
  ∧ WrapError (Some e) (Some s) n =
      (Some (withError n (sprintf_colon (Error s) (Error e)) s e), S n).
Proof. repeat split. Qed.

(** C5: for non-nil [e] and [s], the node [WrapError(e, s)] displays
    [s.Error() + ": " + e.Error()], unwraps in one step to [s] and has
    [e] as its cause; both edges lead to the very errors passed in. *)
Theorem WrapError_node (n : ptr) (e s : error) :
  ∃ w, eval (WrapError (Some e) (Some s)) n = Some w
       ∧ Error w = Error s +:+ ": " +:+ Error e
       ∧ Unwrap_method w = Some s
       ∧ Unwrap (Some w) = Some s
       ∧ Cause (Some w) = Some e
       ∧ iface_eqb (Unwrap (Some w)) (Some s) = true
       ∧ iface_eqb (Cause (Some w)) (Some e) = true.
Proof.
  eexists. split; [reflexivity|]. simpl.
  repeat split; apply same_refl.
Qed.

(** C6: for a non-nil [err], [Wrap(err, msg)] displays
    [msg + ": " + err.Error()] and unwraps in one step to [err] itself,
    the same node and not a copy; [Wrap(nil, msg)] is nil and allocates
    nothing. *)
Theorem Wrap_contract (n : ptr) (err : error) (msg : string) :
  (∃ w, Wrap (Some err) msg n = (Some w, S n)
        ∧ Error w = msg +:+ ": " +:+ Error err
        ∧ Unwrap_method w = Some err
        ∧ Unwrap (Some w) = Some err
        ∧ iface_eqb (Unwrap (Some w)) (Some err) = true)
  ∧ Wrap None msg n = (None, n).
Proof.
  split; [|reflexivity].
  eexists. split; [reflexivity|]. simpl.
  repeat split. apply same_refl.
Qed.

(** C7: with an odd number of key-value arguments [Enrich] gives back the
    non-nil error it was handed, the same node, and builds nothing;
    [Enrich(nil, ...)] is nil whatever the arguments; the two results
    differ. *)
Theorem Enrich_declines (n : ptr) (err : error) (kvs kvs' : tuples) :
  length kvs mod 2 ≠ 0 →
  Enrich (Some err) kvs n = (Some err, n)
  ∧ Enrich None kvs' n = (None, n)
  ∧ eval (Enrich (Some err) kvs) n ≠ eval (Enrich None kvs') n.
Proof.
  intros Hodd.
  assert (E : Enrich (Some err) kvs n = (Some err, n)).
  { unfold Enrich. apply Nat.eqb_neq in Hodd. by rewrite Hodd. }
  repeat split; [exact E|]. unfold eval. by rewrite E.
Qed.

Lemma Enrich_declines_witness :
  length [VString "k"] mod 2 ≠ 0
  ∧ Enrich (Some (errorString 0 "failed")) [VString "k"] 1 =
      (Some (errorString 0 "failed"), 1).
Proof.
  split; [simpl; lia|].
  apply (Enrich_declines 1 (errorString 0 "failed") [VString "k"] []).
  simpl; lia.
Defined.

(** C8: for a non-nil [err] and an even number of key-value arguments,
    [Enrich] builds a node that displays exactly [err]'s message, unwraps
    in one step to [err] itself, and holds the arguments as its own
    pairs. *)
Theorem Enrich_node (n : ptr) (err : error) (kvs : tuples) :
  length kvs mod 2 = 0 →
  ∃ w, Enrich (Some err) kvs n = (Some w, S n)
       ∧ Error w = Error err
       ∧ Unwrap_method w = Some err
       ∧ Unwrap (Some w) = Some err
       ∧ local_pairs w = kvs.
Proof.
  intros Heven. unfold Enrich.
  apply Nat.eqb_eq in Heven. rewrite Heven. simpl negb. cbv iota.
  eexists. split; [reflexivity|]. repeat split.
Qed.

Lemma Enrich_node_witness :
  length [VString "id"; VInt 5] mod 2 = 0
  ∧ ∃ w, Enrich (Some (errorString 0 "failed")) [VString "id"; VInt 5] 1 = (Some w, 2)
         ∧ Error w = "failed"
         ∧ Unwrap_method w = Some (errorString 0 "failed")
         ∧ Unwrap (Some w) = Some (errorString 0 "failed")
         ∧ local_pairs w = [VString "id"; VInt 5].
Proof.
  split; [reflexivity|].
  apply (Enrich_node 1 (errorString 0 "failed") [VString "id"; VInt 5]).
  reflexivity.
Defined.

(** ** Matching through wrapped errors *)

(** Two addresses handed out one after the other differ. *)
Lemma eqb_succ_false (n k : ptr) : Nat.eqb n (S k + n) = false.
Proof. apply Nat.eqb_neq. lia. Qed.

(** C10: [New(m)] displays [m], and two plain errors match exactly when
    their messages are equal strings, although the two calls of [New]
    give two distinct nodes; the [Is] method of a plain error compares
    its message with the other error's. *)
Theorem New_plain_error (n : ptr) (a b : string) :
  (∃ e, eval (New a) n = Some e ∧ Error e = a)
  ∧ eval (x ← New a; y ← New b; mret (iface_eqb x y)) n = false
  ∧ (eval (x ← New a; y ← New b; mret (Is x y)) n = true ↔ a = b)
  ∧ (eval (x ← New a; mret (Is x x)) n = true)
  ∧ (∀ q, errorString_Is a (errorString q b) = true ↔ a = b).
Proof.
  split; [eexists; split; reflexivity|].
  run_alloc. unfold same. simpl.
  pose proof (eqb_succ_false n 0) as Hne. simpl in Hne.
  rewrite Hne, Nat.eqb_refl. simpl. rewrite orb_false_r.
  repeat split; try apply String.eqb_eq.
Qed.

(** On an outside error whose type has a [Cause] method and no [Unwrap]
    method, wrapped as the original error of a cause wrap: the cause of
    that outside error is on the cause chain of the wrap and matches
    itself, and the wrap does not match it.  [withError.Is] takes one step
    along the cause edge and hands over to [Is], which follows unwrap
    edges and [Is] methods. *)
Lemma Is_WrapError_outside_causer :
  let inner := errorString 0 "inner" in
  let outside := outsideError 1 "outside" None (Some inner) in
  let supplied := errorString 2 "oops" in
  let w := eval (WrapError (Some outside) (Some supplied)) 3 in
  inner ∈ from_option cause_chain [] w
  ∧ Is (Some inner) (Some inner) = true
  ∧ Is w (Some inner) = false
  ∧ (w ≫= λ x, Is_method x inner) = Some false
  ∧ ¬ matches_along_cause_chain w supplied (Some inner).
Proof.
  cbv zeta. split; [|split; [|split; [|split]]]; try reflexivity.
  - simpl. apply list_elem_of_further, list_elem_of_here.
  - intros H. assert (Hw : Is (eval (WrapError
                 (Some (outsideError 1 "outside" None (Some (errorString 0 "inner"))))
                 (Some (errorString 2 "oops"))) 3)
               (Some (errorString 0 "inner")) = true); [|discriminate Hw].
    apply H. right. exists (errorString 0 "inner"). split; [|reflexivity].
    simpl. apply list_elem_of_further, list_elem_of_here.
Qed.

(** C2: for non-nil [e] and [s], the cause of [WrapError(e, s)] is [e],
    and its [Is] method accepts a target exactly when [Is] accepts it for
    [s] or for [e].  So [Is(WrapError(e, s), t)] holds as soon as the
    supplied error [s] matches [t], or the original error [e] matches
    [t], or an error further along the cause chain matches [t] and every
    cause before it on the chain is a cause wrap of the package.  In
    particular the node matches [e] and matches [s]; and when such a node
    is wrapped once more with a second supplied error [s2], the outer
    node matches both supplied errors and the innermost cause, whatever
    kind of error that is. *)
Theorem Is_WrapError_cause_wraps (n : ptr) (e s : error) (t : option error) :
  let w := eval (WrapError (Some e) (Some s)) n in
  Cause w = Some e
  ∧ (∀ target : error,
       (w ≫= λ x, Is_method x target) =
         Some (Is (Some s) (Some target) || Is (Cause w) (Some target)))
  ∧ ((Is (Some s) t = true
      ∨ ∃ c, c ∈ from_option wrapped_causes [] w ∧ Is (Some c) t = true) →
     Is w t = true)
  ∧ Is w (Some e) = true
  ∧ Is w (Some s) = true
  ∧ ∀ s2 : error,
      let w2 := eval (w1 ← WrapError (Some e) (Some s);
                      WrapError w1 (Some s2)) n in
      Is w2 (Some s) = true ∧ Is w2 (Some s2) = true ∧ Is w2 (Some e) = true.
Proof.
  run_WrapError. split; [reflexivity|]. split; [|split; [|split; [|split]]].
  - intros target. reflexivity.
  - destruct t as [t|]; [|intros [H | (c & _ & H)]; discriminate].
    unfold Is. rewrite is_loop_withError. cbn [from_option wrapped_causes].
    intros [Hs | (c & Hin & Hc)].
    + rewrite Hs. by rewrite orb_true_r.
    + apply elem_of_cons in Hin as [-> | Hin].
      * rewrite Hc. by rewrite orb_true_r.
      * rewrite (is_loop_wrapped_causes e c t Hin Hc). by rewrite orb_true_r.
  - unfold Is. rewrite is_loop_withError, is_loop_refl. by rewrite orb_true_r.
  - unfold Is. rewrite is_loop_withError, is_loop_refl. by rewrite orb_true_r.
  - intros s2. unfold Is. rewrite !(is_loop_withError (S n)), !(is_loop_withError n).
    rewrite !is_loop_refl, !orb_true_r. repeat split.
Qed.

Lemma Is_WrapError_cause_wraps_witness :
  (Is (Some (errorString 1 "failed")) (Some (foreignError 0 "context canceled")) = true
   ∨ ∃ c, c ∈ from_option wrapped_causes []
              (eval (WrapError (Some (foreignError 0 "context canceled"))
                               (Some (errorString 1 "failed"))) 2)
          ∧ Is (Some c) (Some (foreignError 0 "context canceled")) = true)
  ∧ Is (eval (WrapError (Some (foreignError 0 "context canceled"))
                        (Some (errorString 1 "failed"))) 2)
       (Some (foreignError 0 "context canceled")) = true.
Proof.
  assert (H : Is (Some (errorString 1 "failed"))
                 (Some (foreignError 0 "context canceled")) = true
              ∨ ∃ c, c ∈ from_option wrapped_causes []
                         (eval (WrapError (Some (foreignError 0 "context canceled"))
                                          (Some (errorString 1 "failed"))) 2)
                     ∧ Is (Some c) (Some (foreignError 0 "context canceled")) = true).
  { right. exists (foreignError 0 "context canceled").
    split; [apply list_elem_of_here | reflexivity]. }
  split; [exact H|].
  exact (proj1 (proj2 (proj2 (Is_WrapError_cause_wraps 2
                  (foreignError 0 "context canceled") (errorString 1 "failed")
                  (Some (foreignError 0 "context canceled"))))) H).
Defined.

(** ** Aggregation of pairs *)

(** [keysAndValues] in the shape of its source: the own pairs, an early
    return when [Unwrap(err)] is nil, the pairs of the unwrapped error,
    an early return when [Cause(err)] is nil, the pairs of the cause. *)
Lemma keysAndValues_unfold (err : error) :
  keysAndValues err =
    let kv := local_pairs err in
    match Unwrap (Some err) with
    | None => kv
    | Some uErr =>
        let kv := kv ++ keysAndValues uErr in
        match Cause (Some err) with
        | None => kv
        | Some cause => kv ++ keysAndValues cause
        end
    end.
Proof. destruct err as [ | | | | | p m [u|] [c|] ]; reflexivity. Qed.

(** On an outside error whose type has a [Cause] method and no [Unwrap]
    method, with an enriched error as its cause: [keysAndValues] returns
    at the nil result of [Unwrap] and never reads the cause, so the pairs
    of the cause are not listed, neither for the outside error nor in the
    [Tuples] of a node that enriches it. *)
Lemma keysAndValues_outside_causer :
  let cause := enrichedError 1 (errorString 0 "failed") [VString "a"; VInt 1] in
  let outside := outsideError 2 "outside" None (Some cause) in
  Unwrap (Some outside) = None
  ∧ from_option keysAndValues [] (Cause (Some outside)) = [VString "a"; VInt 1]
  ∧ keysAndValues outside = []
  ∧ ¬ own_unwrap_cause_order outside
  ∧ Tuples (enrichedError 3 outside [VString "b"; VInt 2]) =
      Some [VString "b"; VInt 2].
Proof.
  cbv zeta. repeat split. intros H. unfold own_unwrap_cause_order in H.
  simpl in H. discriminate H.
Qed.

(** C3: the pairs of an error are its own pairs first, then those
    collected along its unwrap edge, then, when the error has an unwrap
    edge, those collected along its cause edge; on an error without an
    unwrap edge the collection stops at the own pairs.  An error that has
    an unwrap edge or no cause, as every node the package builds, has its
    pairs in the order own, unwrap, cause.  So [Tuples] of an enriched
    node starts with the node's pairs, and re-enriching puts the newer
    pairs before the older ones: enriching with [id, 5] and then with
    [n, 6, h, 0X0] gives [n, 6, h, 0X0, id, 5] followed by the pairs of
    the error enriched, of which a plain error has none. *)
Theorem keysAndValues_unwrap_then_cause (n : ptr) (err : error) (m : string) :
  keysAndValues err =
    local_pairs err
    ++ match Unwrap (Some err) with
       | None => []
       | Some uErr =>
           keysAndValues uErr
           ++ from_option keysAndValues [] (Cause (Some err))
       end
  ∧ (is_Some (Unwrap (Some err)) ∨ Cause (Some err) = None →
     own_unwrap_cause_order err)
  ∧ (∀ p kvs, Tuples (enrichedError p err kvs) = Some (kvs ++ keysAndValues err))
  ∧ eval (e1 ← Enrich (Some err) [VString "id"; VInt 5];
          e2 ← Enrich e1 [VString "n"; VInt 6; VString "h"; VString "0X0"];
          mret (e2 ≫= Tuples)) n =
      Some ([VString "n"; VInt 6; VString "h"; VString "0X0";
             VString "id"; VInt 5] ++ keysAndValues err)
  ∧ eval (e0 ← New m;
          e1 ← Enrich e0 [VString "id"; VInt 5];
          e2 ← Enrich e1 [VString "n"; VInt 6; VString "h"; VString "0X0"];
          mret (e2 ≫= Tuples)) n =
      Some [VString "n"; VInt 6; VString "h"; VString "0X0";
            VString "id"; VInt 5].
Proof.
  split; [|split; [|repeat split]].
  - rewrite keysAndValues_unfold.
    destruct err as [ | | | | | p msg [u|] [c|] ]; simpl;
      rewrite ?app_nil_r; reflexivity.
  - unfold own_unwrap_cause_order. intros H.
    destruct err as [ | | | | | p msg [u|] [c|] ]; simpl;
      rewrite ?app_nil_r; try reflexivity.
    destruct H as [[x Hx] | Hc]; discriminate.
Qed.

Lemma keysAndValues_unwrap_then_cause_witness :
  (is_Some (Unwrap (Some (withError 2 "oops: failed"
              (enrichedError 1 (errorString 0 "oops") [VString "a"; VInt 1])
              (errorString 3 "failed"))))
   ∨ Cause (Some (withError 2 "oops: failed"
              (enrichedError 1 (errorString 0 "oops") [VString "a"; VInt 1])
              (errorString 3 "failed"))) = None)
  ∧ own_unwrap_cause_order
      (withError 2 "oops: failed"
         (enrichedError 1 (errorString 0 "oops") [VString "a"; VInt 1])
         (errorString 3 "failed")).
Proof.
  assert (H : is_Some (Unwrap (Some (withError 2 "oops: failed"
                (enrichedError 1 (errorString 0 "oops") [VString "a"; VInt 1])
                (errorString 3 "failed"))))
              ∨ Cause (Some (withError 2 "oops: failed"
                (enrichedError 1 (errorString 0 "oops") [VString "a"; VInt 1])
                (errorString 3 "failed"))) = None).
  { left. simpl. eexists. reflexivity. }
  split; [exact H|].
  exact (proj1 (proj2 (keysAndValues_unwrap_then_cause 4 _ "" )) H).
Defined.

(** C9: [EnrichWrapError(err, supplied, pairs...)] is [WrapError] followed
    by [Enrich] on its result, for nil and non-nil arguments alike.  On
    [New("failed")], [New("oops")], ["id"], [5] the result displays
    ["oops: failed"], matches both errors, and its [Tuples] are
    [["id", 5]]. *)
Theorem EnrichWrapError_composes (n : ptr) (err supplied : option error) (pairs : tuples) :
  EnrichWrapError err supplied pairs n =
    Enrich (WrapError err supplied n).1 pairs (WrapError err supplied n).2
  ∧ eval (failed ← New "failed";
          oops ← New "oops";
          r ← EnrichWrapError failed oops [VString "id"; VInt 5];
          mret (Error <$> r, Is r failed, Is r oops, r ≫= Tuples)) n =
      (Some "oops: failed", true, true, Some [VString "id"; VInt 5]).
Proof.
  split.
  - unfold EnrichWrapError, mbind, alloc_bind.
    by destruct (WrapError err supplied n).
  - run_alloc. unfold same. simpl. rewrite !Nat.eqb_refl, !orb_true_r.
    reflexivity.
Qed.

(** The aggregation test of the package: an enriched message-wrapped
    error used as the supplied error of an enriched cause wrap.  The outer
    pairs come first, then those of the supplied error. *)
Example Tuples_enriched_cause (n : ptr) :
  eval (err ← New "failed";
        wrapped ← Wrap err "stream blocks";
        errEnriched ← Enrich wrapped [VString "block_hash"; VString "0X0"];
        oops ← New "oops";
        errEnriched2 ← EnrichWrapError oops errEnriched [VString "bInt"; VInt 42];
        mret (Error <$> errEnriched2, errEnriched2 ≫= Tuples)) n =
    (Some "stream blocks: failed: oops",
     Some [VString "bInt"; VInt 42; VString "block_hash"; VString "0X0"]).
Proof. reflexivity. Qed.

(** ** [Fields] *)

(** What [Fields] does on every enriched node: it pairs up the node's own
    [keysAndValues] field, and only that. *)
Lemma Fields_local_pairs (p : ptr) (err : error) (kvs : tuples) :
  Fields (enrichedError p err kvs) = Some (fields kvs)
  ∧ entries (fields kvs) = pair_up kvs ∅.
Proof. split; [reflexivity | apply fields_pair_up]. Qed.

(** On an enriched node over an error that carries no pairs, the own
    pairs are all of [Tuples], and [Fields] is their pairing. *)
Lemma Fields_of_Tuples_single (p : ptr) (err : error) (kvs : tuples) :
  keysAndValues err = [] →
  entries <$> Fields (enrichedError p err kvs) =
    (λ t, pair_up t ∅) <$> Tuples (enrichedError p err kvs).
Proof.
  intros Hnone. simpl. rewrite Hnone, app_nil_r. f_equal. apply fields_pair_up.
Qed.

(** The malformed cases of [fields], run on short lists. *)
Example fields_malformed_tail :
  entries (fields [VString "a"; VInt 1; VInt 2; VInt 3; VString "b"]) =
    <["malformedFields" := VSlice [VInt 2; VInt 3; VString "b"]]> {["a" := VInt 1]}.
Proof. reflexivity. Qed.

Example fields_lone_key :
  entries (fields [VString "a"; VInt 1; VString "b"]) =
    <["malformedFields" := VSlice [VString "b"]]> {["a" := VInt 1]}.
Proof. reflexivity. Qed.

Example fields_empty : fields [] = NilMap.
Proof. reflexivity. Qed.

(** C1: [Fields] should be the pairing of the sequence [Tuples] returns.
    On an error enriched twice, with [id, 5] and then with [n, 6],
    [Tuples] returns [n, 6, id, 5], whose pairing maps [n] to 6 and [id]
    to 5; [Fields] of the same node maps [n] to 6 and has no [id]: it
    pairs the outer node's own pairs and leaves out those further down
    the chain. *)
Theorem Fields_misses_inner_pairs (n : ptr) :
  ∃ ee,
    eval (e0 ← New "failed";
          e1 ← Enrich e0 [VString "id"; VInt 5];
          Enrich e1 [VString "n"; VInt 6]) n = Some ee
    ∧ Tuples ee = Some [VString "n"; VInt 6; VString "id"; VInt 5]
    ∧ (λ t, pair_up t ∅) <$> Tuples ee =
        Some (<["id" := VInt 5]> {["n" := VInt 6]})
    ∧ entries <$> Fields ee = Some {["n" := VInt 6]}
    ∧ entries <$> Fields ee ≠ (λ t, pair_up t ∅) <$> Tuples ee.
Proof.
  eexists. split; [reflexivity|]. split; [reflexivity|].
  split; [reflexivity|]. split; [reflexivity|].
  intros H. apply (f_equal (λ o, o ≫= (.!! "id"))) in H.
  vm_compute in H. discriminate H.
Qed.

(** * Further properties *)

(** ** [fields] on well-formed and on malformed lists *)

(** Lists are consumed two elements at a time. *)
Lemma tuples_pair_ind (P : tuples → Prop) :
  P [] → (∀ x, P [x]) → (∀ x y t, P t → P (x :: y :: t)) → ∀ t, P t.
Proof.
  intros Hnil Hone Hstep t.
  assert (H : P t ∧ ∀ x, P (x :: t)); [|exact (proj1 H)].
  induction t as [|y t [IH1 IH2]]; split; auto.
Qed.

Lemma pair_up_not_key (b : value) (rest : tuples) (acc : gmap string value) :
  is_key b = false →
  pair_up (b :: rest) acc = <["malformedFields" := VSlice (b :: rest)]> acc.
Proof.
  destruct b as [ | k | z | vs ]; simpl; try reflexivity.
  intros Hk. apply negb_false_iff in Hk. by rewrite Hk.
Qed.

Lemma pair_up_flat (ps : list (string * value)) (rest : tuples) (acc : gmap string value) :
  Forall (λ p, p.1 ≠ "") ps →
  pair_up (flat ps ++ rest) acc =
    pair_up rest (foldl (λ m p, <[p.1 := p.2]> m) acc ps).
Proof.
  intros Hps. revert acc.
  induction Hps as [|[k v] ps Hk _ IH]; intros acc; [reflexivity|].
  simpl in Hk. simpl. rewrite (eqb_label_false _ Hk). apply IH.
Qed.

(** Inserting pairs one after the other is the table of the pairs in
    which a later pair wins over an earlier one with the same key. *)
Lemma foldl_insert_list_to_map (ps : list (string * value)) (acc : gmap string value) :
  foldl (λ m p, <[p.1 := p.2]> m) acc ps = list_to_map (rev ps) ∪ acc.
Proof.
  revert acc. induction ps as [|[k v] ps IH]; intros acc; simpl.
  - by rewrite (left_id_L ∅ (∪)).
  - rewrite IH, list_to_map_app. simpl.
    rewrite <- (assoc_L (∪)). f_equal.
    rewrite insert_union_singleton_l. by f_equal.
Qed.

(** X1: [fields] returns the nil map on the empty list and on no other;
    on every non-empty list the map has at least one entry. *)
Theorem fields_nil_iff_empty (t : tuples) :
  (fields t = NilMap ↔ t = []) ∧ (entries (fields t) = ∅ ↔ t = []).
Proof.
  split.
  - split; [|by intros ->].
    destruct t as [|l rest]; [done|].
    rewrite fields_finish by done. discriminate.
  - split; [|by intros ->].
    rewrite fields_pair_up. destruct t as [|l rest]; [done|].
    intros H. exfalso. revert H.
    assert (Hne : ∀ t acc, acc ≠ ∅ → pair_up t acc ≠ ∅).
    { intros t. induction t as [ | x | x y t IH ] using tuples_pair_ind;
        intros acc Hacc; [exact Hacc | | ].
      - destruct x as [ | k | z | vs ]; simpl;
          try apply insert_non_empty.
        destruct (String.eqb k ""); apply insert_non_empty.
      - destruct x as [ | k | z | vs ]; simpl;
          try apply insert_non_empty.
        destruct (String.eqb k ""); [apply insert_non_empty|].
        apply IH, insert_non_empty. }
    destruct l as [ | k | z | vs ]; simpl; try apply insert_non_empty.
    destruct (String.eqb k ""); [apply insert_non_empty|].
    destruct rest as [|v rest]; [apply insert_non_empty|].
    apply Hne, insert_non_empty.
Qed.

(** X2: on a flat list of pairs whose keys are all non-empty strings,
    [fields] is the table of those pairs, a later pair winning over an
    earlier one with the same key, and nothing else. *)
Theorem fields_well_formed (ps : list (string * value)) :
  Forall (λ p, p.1 ≠ "") ps →
  entries (fields (flat ps)) = list_to_map (rev ps).
Proof.
  intros Hps. rewrite fields_pair_up.
  rewrite <- (app_nil_r (flat ps)), (pair_up_flat ps [] ∅ Hps). simpl.
  rewrite foldl_insert_list_to_map. by rewrite (right_id_L ∅ (∪)).
Qed.

Lemma fields_well_formed_witness :
  Forall (λ p : string * value, p.1 ≠ "") [("id", VInt 5); ("id", VInt 6)]
  ∧ entries (fields [VString "id"; VInt 5; VString "id"; VInt 6]) !! "id" =
      Some (VInt 6).
Proof.
  assert (H : Forall (λ p : string * value, p.1 ≠ "")
                [("id", VInt 5); ("id", VInt 6)]).
  { repeat constructor; simpl; discriminate. }
  split; [exact H|].
  change [VString "id"; VInt 5; VString "id"; VInt 6]
    with (flat [("id", VInt 5); ("id", VInt 6)]).
  rewrite (fields_well_formed _ H). reflexivity.
Defined.

(** X3: when, after some well-formed pairs, the element at a key position
    is not a non-empty string, [fields] keeps the pairs read so far and
    files that element and everything after it, unpaired, under
    ["malformedFields"], replacing a pair of that name read earlier. *)
Theorem fields_malformed_tail_general
    (ps : list (string * value)) (b : value) (rest : tuples) :
  Forall (λ p, p.1 ≠ "") ps → is_key b = false →
  entries (fields (flat ps ++ b :: rest)) =
    <["malformedFields" := VSlice (b :: rest)]> (list_to_map (rev ps)).
Proof.
  intros Hps Hb. rewrite fields_pair_up, (pair_up_flat ps _ ∅ Hps).
  rewrite (pair_up_not_key b rest _ Hb), foldl_insert_list_to_map.
  by rewrite (right_id_L ∅ (∪)).
Qed.

Lemma fields_malformed_tail_general_witness :
  Forall (λ p : string * value, p.1 ≠ "") [("a", VInt 1)]
  ∧ is_key (VInt 2) = false
  ∧ entries (fields [VString "a"; VInt 1; VInt 2; VString "b"]) =
      <["malformedFields" := VSlice [VInt 2; VString "b"]]>
        (list_to_map (rev [("a", VInt 1)])).
Proof.
  assert (H : Forall (λ p : string * value, p.1 ≠ "") [("a", VInt 1)]).
  { repeat constructor; simpl; discriminate. }
  split; [exact H|]. split; [reflexivity|].
  exact (fields_malformed_tail_general [("a", VInt 1)] (VInt 2) [VString "b"]
           H eq_refl).
Defined.

(** X4: when a well-formed list of pairs is followed by one more key
    without a value, [fields] keeps the pairs and files that key alone
    under ["malformedFields"]. *)
Theorem fields_trailing_key (ps : list (string * value)) (k : string) :
  Forall (λ p, p.1 ≠ "") ps → k ≠ "" →
  entries (fields (flat ps ++ [VString k])) =
    <["malformedFields" := VSlice [VString k]]> (list_to_map (rev ps)).
Proof.
  intros Hps Hk. rewrite fields_pair_up, (pair_up_flat ps _ ∅ Hps).
  simpl. rewrite (eqb_label_false _ Hk), foldl_insert_list_to_map.
  by rewrite (right_id_L ∅ (∪)).
Qed.

Lemma fields_trailing_key_witness :
  Forall (λ p : string * value, p.1 ≠ "") [("a", VInt 1)]
  ∧ "b" ≠ ""
  ∧ entries (fields [VString "a"; VInt 1; VString "b"]) =
      <["malformedFields" := VSlice [VString "b"]]>
        (list_to_map (rev [("a", VInt 1)])).
Proof.
  assert (H : Forall (λ p : string * value, p.1 ≠ "") [("a", VInt 1)]).
  { repeat constructor; simpl; discriminate. }
  assert (Hk : "b" ≠ "") by discriminate.
  split; [exact H|]. split; [exact Hk|].
  exact (fields_trailing_key [("a", VInt 1)] "b" H Hk).
Defined.

(** X5: whatever the list, the map [fields] returns has no entry under
    the empty string: an empty key is never stored, it starts the
    malformed tail instead. *)
Theorem fields_no_empty_key (t : tuples) : entries (fields t) !! "" = None.
Proof.
  rewrite fields_pair_up.
  assert (H : ∀ t acc, acc !! "" = None → pair_up t acc !! "" = None);
    [|apply H, lookup_empty].
  clear t. intros t.
  induction t as [ | x | x y t IH ] using tuples_pair_ind; intros acc Hacc.
  - exact Hacc.
  - destruct x as [ | k | z | vs ]; simpl;
      try (rewrite lookup_insert_ne by discriminate; exact Hacc).
    destruct (String.eqb k "");
      rewrite lookup_insert_ne by discriminate; exact Hacc.
  - destruct x as [ | k | z | vs ]; simpl;
      try (rewrite lookup_insert_ne by discriminate; exact Hacc).
    destruct (String.eqb k "") eqn:Ek.
    + rewrite lookup_insert_ne by discriminate. exact Hacc.
    + apply IH. apply String.eqb_neq in Ek.
      rewrite lookup_insert_ne by done. exact Hacc.
Qed.

Lemma fields_range_parity (t : tuples) :
  (∀ acc, length t mod 2 = 0 → (fields_range t "" acc).2 = "")
  ∧ (∀ acc label, label ≠ "" → length t mod 2 = 1 →
       (fields_range t label acc).2 = "").
Proof.
  induction t as [|l rest [IHkey IHval]].
  - split; [reflexivity | intros acc label _ H; discriminate H].
  - assert (Hpar : ∀ r, length (l :: rest) mod 2 = r →
                        length rest mod 2 = (1 - r)).
    { intros r <-. change (length (l :: rest)) with (1 + length rest)%nat.
      rewrite (Nat.Div0.add_mod 1 (length rest) 2).
      pose proof (Nat.mod_upper_bound (length rest) 2).
      destruct (length rest mod 2) as [|[|k]]; [reflexivity | reflexivity | lia]. }
    split.
    + intros acc Heven. apply Hpar in Heven. simpl fields_range.
      destruct l as [ | k | z | vs ]; try reflexivity.
      simpl assert_string. cbv iota. simpl negb. simpl orb.
      destruct (String.eqb k "") eqn:Ek.
      * simpl. by apply String.eqb_eq in Ek.
      * apply String.eqb_neq in Ek. by apply IHval.
    + intros acc label Hl Hodd. apply Hpar in Hodd. simpl fields_range.
      rewrite (eqb_label_false _ Hl). by apply IHkey.
Qed.

(** X6: on a list of even length, which is all [Enrich] ever stores in a
    node, the loop of [fields] never ends with a key waiting for its
    value: the entry written after the loop for a lone last key cannot
    occur, and the map is the table the loop has built. *)
Theorem fields_even_no_pending_key (t : tuples) :
  length t mod 2 = 0 →
  (fields_range t "" ∅).2 = ""
  ∧ entries (fields t) = (fields_range t "" ∅).1.
Proof.
  intros Heven.
  pose proof (proj1 (fields_range_parity t) ∅ Heven) as Hlabel.
  split; [exact Hlabel|].
  destruct t as [|l rest]; [reflexivity|].
  rewrite fields_finish by done. cbn [entries]. revert Hlabel.
  generalize (fields_range (l :: rest) "" ∅). intros [result label] Hlabel.
  simpl in Hlabel. subst label. reflexivity.
Qed.

Lemma fields_even_no_pending_key_witness :
  length [VString "id"; VInt 5] mod 2 = 0
  ∧ (fields_range [VString "id"; VInt 5] "" ∅).2 = "".
Proof.
  split; [reflexivity|].
  exact (proj1 (fields_even_no_pending_key [VString "id"; VInt 5] eq_refl)).
Defined.

(** ** Pairs along the chain *)

(** X7: the constructors keep the chain such that every enriched node
    holds an even number of values: what [New], [Wrap], [WrapError],
    [Enrich] and [EnrichWrapError] return has the property when their
    error arguments have it, whatever the key-value list handed to the
    last two. *)
Theorem constructors_keep_even_pairs
    (n : ptr) (err supplied : option error) (message : string) (kvs : tuples) :
  even_pairs_opt err → even_pairs_opt supplied →
  even_pairs_opt (eval (New message) n)
  ∧ even_pairs_opt (eval (Wrap err message) n)
  ∧ even_pairs_opt (eval (WrapError err supplied) n)
  ∧ even_pairs_opt (eval (Enrich err kvs) n)
  ∧ even_pairs_opt (eval (EnrichWrapError err supplied kvs) n).
Proof.
  intros He Hs.
  assert (HE : ∀ (w : option error) m, even_pairs_opt w →
                 even_pairs_opt (eval (Enrich w kvs) m)).
  { intros [w|] m Hw; [|exact I]. unfold Enrich.
    destruct (Nat.eqb (length kvs mod 2) 0) eqn:E; simpl; [|exact Hw].
    apply Nat.eqb_eq in E. by split. }
  assert (HW : even_pairs_opt (eval (WrapError err supplied) n)).
  { destruct err as [e|], supplied as [s|]; simpl; auto. }
  repeat split; auto.
  - by destruct err.
  - unfold EnrichWrapError, eval, mbind, alloc_bind. unfold eval in HW.
    destruct (WrapError err supplied n) as [w n']. apply HE, HW.
Qed.

Lemma constructors_keep_even_pairs_witness :
  even_pairs_opt (Some (errorString 0 "failed"))
  ∧ even_pairs_opt (Some (errorString 1 "oops"))
  ∧ even_pairs_opt
      (eval (EnrichWrapError (Some (errorString 0 "failed"))
                             (Some (errorString 1 "oops"))
                             [VString "id"; VInt 5]) 2).
Proof.
  split; [exact I|]. split; [exact I|].
  exact (proj2 (proj2 (proj2 (proj2
    (constructors_keep_even_pairs 2 (Some (errorString 0 "failed"))
       (Some (errorString 1 "oops")) "" [VString "id"; VInt 5] I I))))).
Defined.

(** X8: on a chain in which every enriched node holds an even number of
    values, the aggregated list has even length: it is a sequence of
    whole pairs. *)
Theorem keysAndValues_even (e : error) :
  even_pairs e → length (keysAndValues e) mod 2 = 0.
Proof.
  assert (Hadd : ∀ a b : nat, a mod 2 = 0 → b mod 2 = 0 → (a + b) mod 2 = 0).
  { intros a b Ha Hb. by rewrite Nat.Div0.add_mod, Ha, Hb. }
  induction e as [ p m | p m e IHe | p m s IHs e IHe | p e IHe kvs | p m
                 | p m u c IHu IHc ] using error_edges_ind;
    simpl; intros H; auto.
  - destruct H as [Hs He]. rewrite length_app. apply Hadd; auto.
  - destruct H as [Hk He]. rewrite length_app. apply Hadd; auto.
  - destruct H as [Hu Hc].
    destruct u as [x|]; [|reflexivity].
    destruct c as [y|]; rewrite ?length_app.
    + apply Hadd; [by apply IHu | by apply IHc].
    + by apply IHu.
Qed.

Lemma keysAndValues_even_witness :
  even_pairs (enrichedError 1 (errorString 0 "failed") [VString "id"; VInt 5])
  ∧ length (keysAndValues
              (enrichedError 1 (errorString 0 "failed") [VString "id"; VInt 5]))
      mod 2 = 0.
Proof.
  assert (H : even_pairs
                (enrichedError 1 (errorString 0 "failed") [VString "id"; VInt 5])).
  { split; [reflexivity | exact I]. }
  split; [exact H|]. exact (keysAndValues_even _ H).
Defined.

(** X9: message wrapping leaves the pairs of an error as they are, and a
    cause wrap lists the pairs of the supplied error before those of the
    original error; both hold for nil arguments too, which carry no
    pairs. *)
Theorem pairs_of_wrapped (n : ptr) (err supplied : option error) (message : string) :
  pairs_of (eval (Wrap err message) n) = pairs_of err
  ∧ pairs_of (eval (WrapError err supplied) n) = pairs_of supplied ++ pairs_of err.
Proof.
  destruct err as [e|], supplied as [s|]; simpl; rewrite ?app_nil_r; by split.
Qed.

(** X10: [Enrich] adds its arguments in front of the pairs the error
    already carries when their number is even, and adds none of them when
    it is odd; the pairs already there are never dropped.  On a nil error
    the arguments are lost.  [EnrichWrapError] puts them in front of the
    supplied error's pairs, which come before the original error's. *)
Theorem pairs_of_Enrich (n : ptr) (e : error) (supplied : option error) (kvs : tuples) :
  pairs_of (eval (Enrich (Some e) kvs) n) =
    (if Nat.eqb (length kvs mod 2) 0 then kvs else []) ++ keysAndValues e
  ∧ pairs_of (eval (Enrich None kvs) n) = []
  ∧ pairs_of (eval (EnrichWrapError (Some e) supplied kvs) n) =
      (if Nat.eqb (length kvs mod 2) 0 then kvs else [])
      ++ pairs_of supplied ++ keysAndValues e.
Proof.
  split; [|split; [reflexivity|]].
  - unfold Enrich. by destruct (Nat.eqb (length kvs mod 2) 0).
  - destruct supplied as [s|]; run_Enrich kvs; reflexivity.
Qed.

(** X11: [Enrich] called with an error and no key-value argument does not
    return that error: the empty list has even length, so a new enriched
    node is built around it.  The node adds no pairs, and its [Fields] is
    the nil map. *)
Theorem Enrich_without_pairs (n : ptr) (e : error) :
  allocated n e →
  ∃ w, Enrich (Some e) [] n = (Some w, S n)
       ∧ same w e = false
       ∧ Unwrap_method w = Some e
       ∧ Tuples w = Some (keysAndValues e)
       ∧ Fields w = Some NilMap.
Proof.
  intros He. eexists. split; [reflexivity|].
  split; [by apply (fresh_not_same n)|]. repeat split.
Qed.

Lemma Enrich_without_pairs_witness :
  allocated 1 (errorString 0 "failed")
  ∧ ∃ w, Enrich (Some (errorString 0 "failed")) [] 1 = (Some w, 2)
         ∧ same w (errorString 0 "failed") = false
         ∧ Unwrap_method w = Some (errorString 0 "failed")
         ∧ Tuples w = Some (keysAndValues (errorString 0 "failed"))
         ∧ Fields w = Some NilMap.
Proof.
  assert (H : allocated 1 (errorString 0 "failed")).
  { unfold allocated. simpl. repeat constructor. }
  split; [exact H|]. exact (Enrich_without_pairs 1 _ H).
Defined.

(** ** [Cause] and nil results *)

(** X12: [Cause] looks at the outermost node only.  It is nil on nil, on
    a plain error and on every message wrap, also one around a cause
    wrap; an [Enrich] that builds a node hides the cause of the error it
    enriches.  So [Cause] of [EnrichWrapError(e, s, ...)] is nil when the
    key-value list has even length, and [e] when it is odd and no
    enriched node is built. *)
Theorem Cause_outermost_only
    (n : ptr) (err : option error) (e s : error) (message : string) (kvs : tuples) :
  Cause None = None
  ∧ Cause (eval (New message) n) = None
  ∧ Cause (eval (Wrap err message) n) = None
  ∧ Cause (eval (w ← WrapError (Some e) (Some s); Wrap w message) n) = None
  ∧ Cause (eval (Enrich (Some e) kvs) n) =
      (if Nat.eqb (length kvs mod 2) 0 then None else Cause (Some e))
  ∧ Cause (eval (EnrichWrapError (Some e) (Some s) kvs) n) =
      (if Nat.eqb (length kvs mod 2) 0 then None else Some e).
Proof.
  repeat split.
  - by destruct err.
  - unfold Enrich. by destruct (Nat.eqb (length kvs mod 2) 0).
  - run_Enrich kvs; reflexivity.
Qed.

(** X13: a constructor returns nil only for nil input: [Wrap] and
    [Enrich] exactly when the error is nil, [WrapError] and
    [EnrichWrapError] exactly when both errors are nil; [New] never
    does. *)
Theorem constructors_nil_iff
    (n : ptr) (err supplied : option error) (message : string) (kvs : tuples) :
  eval (New message) n ≠ None
  ∧ (eval (Wrap err message) n = None ↔ err = None)
  ∧ (eval (Enrich err kvs) n = None ↔ err = None)
  ∧ (eval (WrapError err supplied) n = None ↔ err = None ∧ supplied = None)
  ∧ (eval (EnrichWrapError err supplied kvs) n = None ↔
       err = None ∧ supplied = None).
Proof.
  split; [discriminate|].
  split; [destruct err; simpl; split; (done || discriminate)|].
  assert (HE : ∀ (w : option error) m, eval (Enrich w kvs) m = None ↔ w = None).
  { intros [w|] m; [|done]. unfold Enrich.
    destruct (Nat.eqb (length kvs mod 2) 0); simpl; split; discriminate. }
  assert (HW : eval (WrapError err supplied) n = None ↔
               err = None ∧ supplied = None).
  { destruct err as [e|], supplied as [s|]; simpl; split;
      (discriminate || (intros [? ?]; discriminate) || done). }
  split; [apply HE|]. split; [exact HW|].
  rewrite <- HW. unfold EnrichWrapError, eval, mbind, alloc_bind.
  destruct (WrapError err supplied n) as [w n']. apply HE.
Qed.

(** ** Messages *)

(** X14: enrichment is invisible in messages, whatever the number of
    key-value arguments: the result of [Enrich] displays what the error
    displays, and wrapping an enriched error, with a message or with
    another error that may itself be enriched, gives the message that
    wrapping the errors themselves gives. *)
Theorem Enrich_message_transparent
    (n n' : ptr) (err supplied : option error) (kvs kvs' : tuples) (message : string) :
  Error <$> eval (Enrich err kvs) n = Error <$> err
  ∧ Error <$> eval (x ← Enrich err kvs; Wrap x message) n =
      Error <$> eval (Wrap err message) n'
  ∧ Error <$> eval (x ← Enrich err kvs; y ← Enrich supplied kvs';
                    WrapError x y) n =
      Error <$> eval (WrapError err supplied) n'.
Proof.
  destruct err as [e|], supplied as [s|];
    unfold Enrich; run_WrapError;
    destruct (Nat.eqb (length kvs mod 2) 0),
             (Nat.eqb (length kvs' mod 2) 0); simpl; repeat split.
Qed.

(** ** Matching *)

(** X15: the [Is] method of a plain error looks at the displayed text of
    the target and at nothing else.  What [Enrich] returns is accepted
    exactly when the error enriched is; a plain error whose message is
    [msg + ": " + err.Error()] accepts [Wrap(err, msg)], and one whose
    message is [s.Error() + ": " + e.Error()] accepts [WrapError(e, s)],
    although neither is a plain error. *)
Theorem errorString_Is_text_only
    (n : ptr) (m msg : string) (e s : error) (kvs : tuples) :
  from_option (errorString_Is m) false (eval (Enrich (Some e) kvs) n) =
    errorString_Is m e
  ∧ from_option (errorString_Is (msg +:+ ": " +:+ Error e)) false
      (eval (Wrap (Some e) msg) n) = true
  ∧ from_option (errorString_Is (Error s +:+ ": " +:+ Error e)) false
      (eval (WrapError (Some e) (Some s)) n) = true.
Proof.
  split; [|split].
  - run_Enrich kvs; reflexivity.
  - simpl. unfold errorString_Is. apply String.eqb_refl.
  - simpl. unfold errorString_Is. apply String.eqb_refl.
Qed.

(** ** Formatted constructors and fresh nodes *)

(** X18: [Newf] is [New] on the formatted message, and [Wrapf] is [Wrap]
    on the formatted message for every error, nil included: on nil both
    return nil and allocate nothing. *)
Theorem formatted_constructors
    (Sprintf : string → list value → string) (n : ptr)
    (err : option error) (format : string) (args : list value) :
  Newf Sprintf format args n = New (Sprintf format args) n
  ∧ Wrapf Sprintf err format args n = Wrap err (Sprintf format args) n
  ∧ Wrapf Sprintf None format args n = (None, n)
  ∧ Error <$> eval (Wrapf Sprintf err format args) n =
      (λ e, Sprintf format args +:+ ": " +:+ Error e) <$> err.
Proof. destruct err; repeat split. Qed.

Lemma allocated_nodes (n : ptr) (e x : error) :
  allocated n e → x ∈ nodes e → allocated n x.
Proof.
  unfold allocated.
  induction e as [ p m | p m e IHe | p m s IHs e IHe | p e IHe kvs | p m
                 | p m u c IHu IHc ] using error_edges_ind;
    simpl nodes; intros Hall Hx;
    apply elem_of_cons in Hx as [-> | Hx]; try exact Hall;
    try (by apply elem_of_nil in Hx); simpl in Hall;
    apply Forall_cons in Hall as [_ Hall].
  - by apply IHe.
  - apply Forall_app in Hall as [Hs He].
    apply elem_of_app in Hx as [Hx | Hx]; [by apply IHs | by apply IHe].
  - by apply IHe.
  - apply Forall_app in Hall as [Hu Hc].
    apply elem_of_app in Hx as [Hx | Hx].
    + destruct u as [y|]; [by apply IHu | by apply elem_of_nil in Hx].
    + destruct c as [y|]; [by apply IHc | by apply elem_of_nil in Hx].
Qed.

(** X19: when a constructor builds a node, the node is a new one: it is
    none of the errors it was built from and none of the nodes inside
    them.  This holds for [Wrap] on a non-nil error, for [WrapError] on
    two non-nil errors and for [Enrich] with an even number of
    arguments. *)
Theorem built_node_is_new
    (n : ptr) (e s x : error) (message : string) (kvs : tuples) :
  allocated n e → allocated n s → length kvs mod 2 = 0 →
  x ∈ nodes e ++ nodes s →
  from_option (λ w, same w x) true (eval (Wrap (Some e) message) n) = false
  ∧ from_option (λ w, same w x) true (eval (WrapError (Some e) (Some s)) n) = false
  ∧ from_option (λ w, same w x) true (eval (Enrich (Some e) kvs) n) = false.
Proof.
  intros He Hs Heven Hx.
  assert (Hax : allocated n x).
  { apply elem_of_app in Hx as [Hx | Hx];
      [by apply (allocated_nodes n e) | by apply (allocated_nodes n s)]. }
  apply Nat.eqb_eq in Heven.
  split; [|split].
  - simpl. by apply (fresh_not_same n).
  - simpl. by apply (fresh_not_same n).
  - unfold Enrich. rewrite Heven. simpl. by apply (fresh_not_same n).
Qed.

Lemma built_node_is_new_witness :
  allocated 2 (errorString 0 "failed")
  ∧ allocated 2 (errorString 1 "oops")
  ∧ length [VString "id"; VInt 5] mod 2 = 0
  ∧ errorString 0 "failed" ∈
      nodes (errorString 0 "failed") ++ nodes (errorString 1 "oops")
  ∧ from_option (λ w, same w (errorString 0 "failed")) true
      (eval (WrapError (Some (errorString 0 "failed"))
                       (Some (errorString 1 "oops"))) 2) = false.
Proof.
  assert (He : allocated 2 (errorString 0 "failed")).
  { unfold allocated. simpl. repeat constructor. }
  assert (Hs : allocated 2 (errorString 1 "oops")).
  { unfold allocated. simpl. repeat constructor. }
  assert (Hx : errorString 0 "failed" ∈
                 nodes (errorString 0 "failed") ++ nodes (errorString 1 "oops")).
  { simpl. apply list_elem_of_here. }
  split; [exact He|]. split; [exact Hs|]. split; [reflexivity|].
  split; [exact Hx|].
  exact (proj1 (proj2 (built_node_is_new 2 _ _ _ "" [VString "id"; VInt 5]
                         He Hs eq_refl Hx))).
Defined.

(** ** Unwrapping and [Fields] on built chains *)

(** X20: the unwrap chain of [EnrichWrapError(e, s, ...)] leads to the
    supplied error and not to the original one: with an even number of
    key-value arguments two unwrap steps reach [s], the first giving the
    cause wrap, whose cause is [e]; with an odd number no enriched node
    is built and one step reaches [s]. *)
Theorem EnrichWrapError_unwraps_to_supplied
    (n : ptr) (e s : error) (kvs : tuples) :
  ((eval (EnrichWrapError (Some e) (Some s) kvs) n ≫= Unwrap_method)
     ≫= Unwrap_method) =
    (if Nat.eqb (length kvs mod 2) 0 then Some s else Unwrap_method s)
  ∧ (eval (EnrichWrapError (Some e) (Some s) kvs) n ≫= Unwrap_method) =
      (if Nat.eqb (length kvs mod 2) 0
       then eval (WrapError (Some e) (Some s)) n
       else Some s)
  ∧ Cause (eval (WrapError (Some e) (Some s)) n) = Some e.
Proof. repeat split; run_Enrich kvs; reflexivity. Qed.

(** X21: when the error enriched carries no pairs of its own, as a
    chain of plain, message-wrapped and cause-wrapped errors does, the
    node [Enrich] builds for an even number of arguments has exactly
    those arguments as its [Tuples], and its [Fields] is their pairing. *)
Theorem Fields_pairs_Tuples_over_bare_error (n : ptr) (e : error) (kvs : tuples) :
  keysAndValues e = [] → length kvs mod 2 = 0 →
  ∃ w, eval (Enrich (Some e) kvs) n = Some w
       ∧ Tuples w = Some kvs
       ∧ entries <$> Fields w = (λ t, pair_up t ∅) <$> Tuples w.
Proof.
  intros Hbare Heven. apply Nat.eqb_eq in Heven.
  unfold Enrich. rewrite Heven. eexists. split; [reflexivity|].
  split.
  - simpl. by rewrite Hbare, app_nil_r.
  - by apply Fields_of_Tuples_single.
Qed.

Lemma Fields_pairs_Tuples_over_bare_error_witness :
  keysAndValues (errorString 0 "failed") = []
  ∧ length [VString "id"; VInt 5] mod 2 = 0
  ∧ ∃ w, eval (Enrich (Some (errorString 0 "failed")) [VString "id"; VInt 5]) 1
           = Some w
         ∧ Tuples w = Some [VString "id"; VInt 5]
         ∧ entries <$> Fields w = (λ t, pair_up t ∅) <$> Tuples w.
Proof.
  split; [reflexivity|]. split; [reflexivity|].
  exact (Fields_pairs_Tuples_over_bare_error 1 (errorString 0 "failed")
           [VString "id"; VInt 5] eq_refl eq_refl).
Defined.
